(** * sqlsockets: a Parent/Child aggregate mapped onto three relational tables

    Shallow embedding of [src/sqlsockets.py]: the pydantic models [Child] and
    [Parent], the three tables [parent], [child] and [parent_child], and the
    two methods of [ParentSocket], [create_many] and [query].

    The relational layer (PostgreSQL behind SQLAlchemy) is modelled by its
    observable contract:
    - a table is the list of its rows in insertion order;
    - a multi-row INSERT either appends all its rows or raises
      [IntegrityError], when a primary key would be repeated or a foreign key
      would dangle;
    - [with conn.begin()] commits when its block ends normally and restores
      the contents of the tables when an exception leaves the block;
    - the SELECT of [query] yields the rows of
      [child JOIN parent_child ON child.id = parent_child.child_id] as a
      nested loop over the two tables in insertion order, [child] being the
      outer one (the source fixes no ORDER BY; its own assertions on
      [children[0]] and [children[1]] rely on insertion order). *)

From stdpp Require Import base decidable option list gmap sets.
From Stdlib Require Import NArith Lia.

Set Warnings "-clear-no-such-hyp".

Open Scope N_scope.

(** ** Data model *)

(** A UUID is a 128-bit number; only equality on identities is ever used, and
    [str] on a UUID is injective, so the string form of lines 94-100 is
    identified with the number. *)
Definition UUID4 : Type := N.

(** [class Child(BaseModel)] *)
Record Child : Type := mkChild { Child_id : UUID4 }.

(** [class Parent(BaseModel)] *)
Record Parent : Type := mkParent {
  Parent_id : UUID4;
  Parent_children : list Child
}.

#[global] Instance Child_eq_dec : EqDecision Child.
Proof. solve_decision. Defined.

#[global] Instance Parent_eq_dec : EqDecision Parent.
Proof. solve_decision. Defined.

(** A row of [parent_child_table]: both columns form the primary key, each is
    a foreign key. Rows of [parent_table] (column [user_id]) and of
    [child_table] (column [id]) have a single column and are represented by
    its value. *)
Record Link : Type := mkLink { parent_id : UUID4; child_id : UUID4 }.

#[global] Instance Link_eq_dec : EqDecision Link.
Proof. solve_decision. Defined.

(** The database: the three tables of [metadata_obj]. *)
Record Store : Type := mkStore {
  parent_table : list UUID4;
  child_table : list UUID4;
  parent_child_table : list Link
}.

Definition empty_store : Store := mkStore [] [] [].

(** ** Staging loop of [create_many] (lines 85-100) *)

(** The local variables of the loop. [inserted_parent_children] (line 90) is
    never read nor written after its creation and is left out. *)
Record Staging : Type := mkStaging {
  parent_instances : list UUID4;
  child_instances : list UUID4;
  parent_child_instances : list Link;
  inserted_children : gset UUID4
}.

Definition staging_init : Staging := mkStaging [] [] [] ∅.

(** Body of [for child in obj.children] (lines 97-100): the three statements
    under [if child.id not in inserted_children], the link row included. *)
Definition stage_child (pid : UUID4) (st : Staging) (child : Child) : Staging :=
  if decide (Child_id child ∈ inserted_children st) then st
  else
    {| parent_instances := parent_instances st;
       child_instances := child_instances st ++ [Child_id child];
       parent_child_instances :=
         parent_child_instances st ++ [mkLink pid (Child_id child)];
       inserted_children := inserted_children st ∪ {[Child_id child]} |}.

(** Body of [for obj in objs] (lines 94-100). *)
Definition stage_obj (st : Staging) (obj : Parent) : Staging :=
  let pid := Parent_id obj in
  let st1 :=
    {| parent_instances := parent_instances st ++ [pid];
       child_instances := child_instances st;
       parent_child_instances := parent_child_instances st;
       inserted_children := inserted_children st |} in
  foldl (stage_child pid) st1 (Parent_children obj).

Definition stage (objs : list Parent) : Staging :=
  foldl stage_obj staging_init objs.

(** ** Connection, statements and transactions *)

(** The argument of [query]: [id: UUID4 | list[UUID4]]. *)
Inductive Key : Type :=
  | Single (id : UUID4)
  | Multi (ids : list UUID4).

Inductive Stmt : Type :=
  | InsertParent (rows : list UUID4)
  | InsertChild (rows : list UUID4)
  | InsertParentChild (rows : list Link)
  | SelectChildren (id : Key).

Inductive Event : Type :=
  | Connect
  | Begin
  | Execute (q : Stmt)
  | Commit
  | Rollback
  | Close.

(** What a call can observe and change: the contents of the database and the
    chronological record of what was asked of the engine. *)
Record World : Type := mkWorld { db : Store; log : list Event }.

Inductive exn : Type := IntegrityError | IndexError.

Inductive outcome (A : Type) : Type :=
  | Return (a : A)
  | Raise (e : exn).
Arguments Return {A} a.
Arguments Raise {A} e.

Definition M (A : Type) : Type := World → World * outcome A.

Definition ret {A} (a : A) : M A := λ w, (w, Return a).
Definition raise {A} (e : exn) : M A := λ w, (w, Raise e).
Definition bind {A B} (k : A → M B) (m : M A) : M B :=
  λ w, match m w with
       | (w', Return a) => k a w'
       | (w', Raise e) => (w', Raise e)
       end.

#[global] Instance M_ret : MRet M := @ret.
#[global] Instance M_bind : MBind M := @bind.

Definition emit (e : Event) : M unit :=
  λ w, (mkWorld (db w) (log w ++ [e]), Return tt).

(** [with engine.connect() as conn: body]: the connection is closed however
    the body ends. *)
Definition engine_connect {A} (body : M A) : M A :=
  λ w, let '(w1, _) := emit Connect w in
       let '(w2, r) := body w1 in
       let '(w3, _) := emit Close w2 in
       (w3, r).

(** [with conn.begin(): body]: commit on normal exit, rollback to the
    contents at [begin] when an exception leaves the block. *)
Definition conn_begin {A} (body : M A) : M A :=
  λ w, let '(w1, _) := emit Begin w in
       match body w1 with
       | (w2, Return a) => (mkWorld (db w2) (log w2 ++ [Commit]), Return a)
       | (w2, Raise e) => (mkWorld (db w) (log w2 ++ [Rollback]), Raise e)
       end.

(** *** INSERT *)

(** Primary key: the new rows are pairwise distinct and none is stored yet. *)
Definition pk_ok {A} `{EqDecision A} (table rows : list A) : Prop :=
  NoDup rows ∧ Forall (λ r, r ∉ table) rows.

(** Foreign keys of [parent_child]: both ends exist. *)
Definition fk_ok (s : Store) (rows : list Link) : Prop :=
  Forall (λ r, parent_id r ∈ parent_table s ∧ child_id r ∈ child_table s) rows.

#[global] Instance pk_ok_dec {A} `{EqDecision A} (table rows : list A) :
  Decision (pk_ok table rows).
Proof. unfold pk_ok. apply _. Defined.

#[global] Instance fk_ok_dec s rows : Decision (fk_ok s rows).
Proof. unfold fk_ok. apply _. Defined.

(** [INSERT INTO parent (user_id) VALUES ... RETURNING user_id]: the result
    holds the inserted keys. *)
Definition insert_parent (rows : list UUID4) (s : Store)
  : outcome (Store * list UUID4) :=
  if decide (pk_ok (parent_table s) rows) then
    Return (mkStore (parent_table s ++ rows) (child_table s)
                    (parent_child_table s), rows)
  else Raise IntegrityError.

(** [INSERT INTO child (id) VALUES ...] *)
Definition insert_child (rows : list UUID4) (s : Store)
  : outcome (Store * unit) :=
  if decide (pk_ok (child_table s) rows) then
    Return (mkStore (parent_table s) (child_table s ++ rows)
                    (parent_child_table s), tt)
  else Raise IntegrityError.

(** [INSERT INTO parent_child (parent_id, child_id) VALUES ...] *)
Definition insert_parent_child (rows : list Link) (s : Store)
  : outcome (Store * unit) :=
  if decide (pk_ok (parent_child_table s) rows ∧ fk_ok s rows) then
    Return (mkStore (parent_table s) (child_table s)
                    (parent_child_table s ++ rows), tt)
  else Raise IntegrityError.

(** [conn.execute(q)]: the statement is recorded, then run on the tables. *)
Definition conn_execute {A} (q : Stmt) (run : Store → outcome (Store * A))
  : M A :=
  λ w, let lg := log w ++ [Execute q] in
       match run (db w) with
       | Return (s', a) => (mkWorld s' lg, Return a)
       | Raise e => (mkWorld (db w) lg, Raise e)
       end.

(** ** [ParentSocket.create_many] (lines 80-117) *)
Definition create_many (objs : list Parent) : M nat :=
  match objs with
  | [] => ret 0%nat
  | _ :: _ =>
      engine_connect (
        let st := stage objs in
        conn_begin (
          result ← conn_execute (InsertParent (parent_instances st))
                                (insert_parent (parent_instances st));
          match child_instances st with
          | [] => ret tt
          | _ :: _ =>
              conn_execute (InsertChild (child_instances st))
                           (insert_child (child_instances st));;
              conn_execute (InsertParentChild (parent_child_instances st))
                           (insert_parent_child (parent_child_instances st))
          end;;
          ret (length result)))
  end.

(** ** [ParentSocket.query] (lines 119-149) *)

(** The WHERE clause: [parent_id == id] or [parent_id.in_(id)]. *)
Definition key_matches (key : Key) (p : UUID4) : Prop :=
  match key with
  | Single k => p = k
  | Multi ks => p ∈ ks
  end.

#[global] Instance key_matches_dec key p : Decision (key_matches key p).
Proof. destruct key; simpl; apply _. Defined.

(** [SELECT parent_child.parent_id, child.id
     FROM child JOIN parent_child ON child.id = parent_child.child_id
     WHERE ...] *)
Definition select_children (key : Key) (s : Store) : list (UUID4 * UUID4) :=
  c ← child_table s;
  l ← filter (λ l, child_id l = c ∧ key_matches key (parent_id l))
             (parent_child_table s);
  [(parent_id l, c)].

(** [parents[k].append(v)] on a [defaultdict(list)]: a dict keeps its keys in
    order of first insertion. *)
Fixpoint defaultdict_append (k v : UUID4) (d : list (UUID4 * list UUID4))
  : list (UUID4 * list UUID4) :=
  match d with
  | [] => [(k, [v])]
  | (k', vs) :: d' =>
      if decide (k = k') then (k', vs ++ [v]) :: d'
      else (k', vs) :: defaultdict_append k v d'
  end.

(** Lines 140-142. *)
Definition group_rows (rows : list (UUID4 * UUID4)) : list (UUID4 * list UUID4) :=
  foldl (λ parents row, defaultdict_append row.1 row.2 parents) [] rows.

(** Lines 145-147. *)
Definition build_results (parents : list (UUID4 * list UUID4)) : list Parent :=
  (λ item, mkParent item.1 (mkChild <$> item.2)) <$> parents.

Inductive QueryResult : Type :=
  | One (p : Parent)
  | Many (ps : list Parent).

Definition query (id : Key) : M QueryResult :=
  engine_connect (
    rows ← conn_execute (SelectChildren id)
                        (λ s, Return (s, select_children id s));
    let results := build_results (group_rows rows) in
    match id with
    | Multi _ => ret (Many results)
    | Single _ =>
        match results with
        | [] => raise IndexError
        | r :: _ => ret (One r)
        end
    end).

(** ** The module's own run (lines 152-166) *)

(** What can stop the run: a failed [assert], an attribute read on a result
    of the wrong shape, or an exception leaving [create_many] or [query]. *)
Inductive failure : Type :=
  | AssertionError
  | AttributeError
  | Uncaught (e : exn).

Definition Script (A : Type) : Type := World → World * (A + failure).

Definition script_ret {A} (a : A) : Script A := λ w, (w, inl a).
Definition script_fail {A} (f : failure) : Script A := λ w, (w, inr f).

#[global] Instance Script_ret : MRet Script := @script_ret.

(** A call of a method of [parent_socket]. *)
Definition call {A} (m : M A) : Script A :=
  λ w, match m w with
       | (w', Return a) => (w', inl a)
       | (w', Raise e) => (w', inr (Uncaught e))
       end.



(** [l[i]] *)
Definition item {A} (l : list A) (i : nat) : Script A :=
  match l !! i with
  | Some x => script_ret x
  | None => script_fail (Uncaught IndexError)
  end.

#[global] Instance QueryResult_eq_dec : EqDecision QueryResult.
Proof. solve_decision. Defined.


(** ** Specification-side vocabulary *)

(** The (parent, child) membership pairs of a batch, in input order. *)
Definition memberships (objs : list Parent) : list Link :=
  o ← objs; (λ ch, mkLink (Parent_id o) (Child_id ch)) <$> Parent_children o.

(** The child identities of a batch, position by position. *)
Definition batch_children (objs : list Parent) : list UUID4 :=
  child_id <$> memberships objs.

(** The pairs whose child identity occurs for the first time, given the
    identities [seen] so far. *)
Fixpoint first_links (seen : gset UUID4) (ms : list Link) : list Link :=
  match ms with
  | [] => []
  | m :: ms' =>
      if decide (child_id m ∈ seen) then first_links seen ms'
      else m :: first_links (seen ∪ {[child_id m]}) ms'
  end.

(** The first Parent, in input order, whose child list holds [c]. *)
Fixpoint first_owner (objs : list Parent) (c : UUID4) : option UUID4 :=
  match objs with
  | [] => None
  | o :: objs' =>
      if decide (c ∈ Child_id <$> Parent_children o) then Some (Parent_id o)
      else first_owner objs' c
  end.

(** The invariants the schema keeps on the tables: primary keys and foreign
    keys. *)
Definition store_consistent (s : Store) : Prop :=
  NoDup (parent_table s) ∧ NoDup (child_table s) ∧
  NoDup (parent_child_table s) ∧ fk_ok s (parent_child_table s).

#[global] Instance store_consistent_dec s : Decision (store_consistent s).
Proof. unfold store_consistent. apply _. Defined.

(** The statements a batch sends inside its transaction, in order. *)
Definition planned (st : Staging) : list Stmt :=
  InsertParent (parent_instances st) ::
  match child_instances st with
  | [] => []
  | _ :: _ => [InsertChild (child_instances st);
               InsertParentChild (parent_child_instances st)]
  end.

(** The tables after all staged rows have been appended. *)
Definition written (s : Store) (st : Staging) : Store :=
  mkStore (parent_table s ++ parent_instances st)
          (child_table s ++ child_instances st)
          (parent_child_table s ++ parent_child_instances st).

(** The tables inside the transaction, after the first and after the second
    INSERT. *)
Definition parents_written (s : Store) (st : Staging) : Store :=
  mkStore (parent_table s ++ parent_instances st) (child_table s)
          (parent_child_table s).

Definition children_written (s : Store) (st : Staging) : Store :=
  mkStore (parent_table s ++ parent_instances st)
          (child_table s ++ child_instances st)
          (parent_child_table s).

(** No identity of the batch collides: Parent identities are pairwise
    distinct and absent from the [parent] table, child identities are absent
    from the [child] table. *)
Definition batch_fresh (s : Store) (objs : list Parent) : Prop :=
  NoDup (Parent_id <$> objs) ∧
  Forall (λ p, p ∉ parent_table s) (Parent_id <$> objs) ∧
  Forall (λ c, c ∉ child_table s) (batch_children objs).

#[global] Instance batch_fresh_dec s objs : Decision (batch_fresh s objs).
Proof. unfold batch_fresh. apply _. Defined.

(** Every INSERT of the batch passes the constraints of its table. *)
Definition batch_accepted (s : Store) (st : Staging) : Prop :=
  pk_ok (parent_table s) (parent_instances st) ∧
  (child_instances st = [] ∨
   (pk_ok (child_table s) (child_instances st) ∧
    pk_ok (parent_child_table s) (parent_child_instances st) ∧
    fk_ok (children_written s st) (parent_child_instances st))).

#[global] Instance batch_accepted_dec s st : Decision (batch_accepted s st).
Proof. unfold batch_accepted. apply _. Defined.

(** The record of a call that opened a connection and a transaction. *)
Definition opened (w : World) : list Event := log w ++ [Connect; Begin].

(** What [query] hands back when it returns. *)
Definition returned (r : outcome QueryResult) : list Parent :=
  match r with
  | Return (One p) => [p]
  | Return (Many ps) => ps
  | Raise _ => []
  end.

(** First occurrences of a list, in order. *)
Fixpoint first_seen (ks : list UUID4) : list UUID4 :=
  match ks with
  | [] => []
  | k :: ks' => k :: filter (λ k', k' ≠ k) (first_seen ks')
  end.

(** The child identities of the rows of one parent, in row order. *)
Definition children_of (rows : list (UUID4 * UUID4)) (p : UUID4) : list UUID4 :=
  snd <$> filter (λ row, row.1 = p) rows.

(** The reconstruction of lines 140-147 in closed form: one Parent per
    parent identity of the rows, in order of first occurrence, with the child
    identities of its rows in row order. *)
Definition regroup (rows : list (UUID4 * UUID4)) : list Parent :=
  (λ k, mkParent k (mkChild <$> children_of rows k)) <$> first_seen (rows.*1).

(** The parent identity has a link row whose child row exists. *)
Definition has_children (s : Store) (k : UUID4) : Prop :=
  Exists (λ l, parent_id l = k ∧ child_id l ∈ child_table s)
         (parent_child_table s).

#[global] Instance has_children_dec s k : Decision (has_children s k).
Proof. unfold has_children. apply _. Defined.

(** What [parents[k]] would read. *)
Fixpoint defaultdict_get (k : UUID4) (d : list (UUID4 * list UUID4))
  : list UUID4 :=
  match d with
  | [] => []
  | (k', vs) :: d' => if decide (k = k') then vs else defaultdict_get k d'
  end.

(** A link row as a row of the SELECT. *)
Definition row (l : Link) : UUID4 * UUID4 := (parent_id l, child_id l).


(** A Parent of a batch that the batch stages in full: it has children, lists
    none twice, and is the first of the batch to hold each of them. *)
Definition staged_whole (objs : list Parent) (o : Parent) : Prop :=
  Parent_children o ≠ [] ∧
  NoDup (Child_id <$> Parent_children o) ∧
  Forall (λ c, first_owner objs c = Some (Parent_id o))
         (Child_id <$> Parent_children o).

#[global] Instance staged_whole_dec objs o : Decision (staged_whole objs o).
Proof. unfold staged_whole. apply _. Defined.

(** ** The staging loop *)

Section staging.

Implicit Types (st : Staging) (seen : gset UUID4) (ms : list Link).

Lemma Staging_eq a b c d a' b' c' d' :
  a = a' → b = b' → c = c' → d = d' →
  mkStaging a b c d = mkStaging a' b' c' d'.
Proof. by intros -> -> -> ->. Qed.

Lemma seen_absorb seen (Y : gset UUID4) c :
  c ∈ seen → seen ∪ Y = seen ∪ ({[c]} ∪ Y).
Proof. set_solver. Qed.

Lemma seen_assoc seen (Y : gset UUID4) c :
  seen ∪ {[c]} ∪ Y = seen ∪ ({[c]} ∪ Y).
Proof. set_solver. Qed.

Lemma first_links_seen_eq seen seen' ms :
  seen = seen' → first_links seen ms = first_links seen' ms.
Proof. by intros ->. Qed.

Lemma first_links_app seen ms1 ms2 :
  first_links seen (ms1 ++ ms2) =
  first_links seen ms1 ++
  first_links (seen ∪ list_to_set (child_id <$> ms1)) ms2.
Proof.
  revert seen. induction ms1 as [|m ms1 IH]; intros seen; simpl.
  - apply first_links_seen_eq. set_solver.
  - case_decide as Hin; simpl; rewrite IH.
    + f_equal. apply first_links_seen_eq. by apply seen_absorb.
    + do 2 f_equal. apply first_links_seen_eq. apply seen_assoc.
Qed.

Lemma stage_children_spec pid (chs : list Child) st :
  let ms := (λ ch, mkLink pid (Child_id ch)) <$> chs in
  foldl (stage_child pid) st chs =
  mkStaging (parent_instances st)
    (child_instances st ++ (child_id <$> first_links (inserted_children st) ms))
    (parent_child_instances st ++ first_links (inserted_children st) ms)
    (inserted_children st ∪ list_to_set (child_id <$> ms)).
Proof.
  revert st. induction chs as [|ch chs IH]; intros st; cbn zeta in *.
  - destruct st; simpl. apply Staging_eq; rewrite ?app_nil_r; try done. set_solver.
  - cbn [foldl]. rewrite IH. rewrite !fmap_cons. cbn [first_links child_id].
    unfold stage_child. case_decide as Hin; simpl.
    + apply Staging_eq; try done. by apply seen_absorb.
    + apply Staging_eq; rewrite <- ?app_assoc; try done. apply seen_assoc.
Qed.

Lemma memberships_cons o (objs : list Parent) :
  memberships (o :: objs) =
  ((λ ch, mkLink (Parent_id o) (Child_id ch)) <$> Parent_children o) ++
  memberships objs.
Proof. done. Qed.

Lemma stage_objs_spec (objs : list Parent) st :
  foldl stage_obj st objs =
  mkStaging (parent_instances st ++ (Parent_id <$> objs))
    (child_instances st ++
       (child_id <$> first_links (inserted_children st) (memberships objs)))
    (parent_child_instances st ++
       first_links (inserted_children st) (memberships objs))
    (inserted_children st ∪ list_to_set (batch_children objs)).
Proof.
  revert st. induction objs as [|o objs IH]; intros st.
  - destruct st; simpl. apply Staging_eq; rewrite ?app_nil_r; try done. set_solver.
  - cbn [foldl]. rewrite IH. unfold stage_obj.
    rewrite stage_children_spec. cbn [parent_instances child_instances
      parent_child_instances inserted_children].
    unfold batch_children. rewrite memberships_cons.
    rewrite first_links_app, !fmap_app, list_to_set_app_L.
    apply Staging_eq; rewrite <- ?app_assoc; try done.
    by rewrite (assoc_L (∪)).
Qed.

Lemma stage_spec (objs : list Parent) :
  stage objs =
  mkStaging (Parent_id <$> objs)
    (child_id <$> first_links ∅ (memberships objs))
    (first_links ∅ (memberships objs))
    (list_to_set (batch_children objs)).
Proof.
  unfold stage. rewrite stage_objs_spec. simpl.
  apply Staging_eq; try done. apply (left_id_L ∅ (∪)).
Qed.

Lemma first_links_elem seen ms l :
  l ∈ first_links seen ms → l ∈ ms ∧ child_id l ∉ seen.
Proof.
  revert seen. induction ms as [|m ms IH]; intros seen; simpl.
  - by intros ?%elem_of_nil.
  - case_decide as Hin.
    + intros [??]%IH. split; [by right | done].
    + intros [->|[? Hn]%IH]%elem_of_cons; [split; [by left | done] |].
      split; [by right |]. intros ?. apply Hn, elem_of_union. by left.
Qed.

Lemma first_links_complete seen ms c :
  c ∈ child_id <$> ms → c ∉ seen → c ∈ child_id <$> first_links seen ms.
Proof.
  revert seen. induction ms as [|m ms IH]; intros seen; simpl.
  - by intros ?%elem_of_nil.
  - intros Hc Hn. apply elem_of_cons in Hc. case_decide as Hin.
    + destruct Hc as [->|Hc]; [done | by apply IH].
    + rewrite fmap_cons. destruct (decide (c = child_id m)) as [->|Hne].
      * by left.
      * right. destruct Hc as [->|Hc]; [done |]. apply IH; [done |].
        rewrite elem_of_union, elem_of_singleton. tauto.
Qed.

Lemma first_links_NoDup seen ms : NoDup (child_id <$> first_links seen ms).
Proof.
  revert seen. induction ms as [|m ms IH]; intros seen; simpl.
  - constructor.
  - case_decide as Hin; [apply IH |]. rewrite fmap_cons. constructor; [| apply IH].
    intros (l & Hl & [_ Hn]%first_links_elem)%list_elem_of_fmap.
    apply Hn, elem_of_union. right. by apply elem_of_singleton.
Qed.


(** Within one Parent's child list: the pairs staged are those of the child
    identities not seen before. *)
Lemma first_links_own seen pid (chs : list Child) l :
  l ∈ first_links seen ((λ ch, mkLink pid (Child_id ch)) <$> chs) ↔
  (child_id l ∉ seen) ∧ parent_id l = pid ∧
  child_id l ∈ Child_id <$> chs.
Proof.
  split.
  - intros [(ch & -> & Hch)%list_elem_of_fmap Hn]%first_links_elem.
    simpl. split_and!; [done.. |]. by apply list_elem_of_fmap_2.
  - intros (Hn & Hp & Hc).
    assert (child_id l ∈ child_id <$> first_links seen
              ((λ ch, mkLink pid (Child_id ch)) <$> chs)) as Hin.
    { apply first_links_complete; [| done].
      rewrite <- list_fmap_compose. exact Hc. }
    apply list_elem_of_fmap in Hin as (l' & Heq & Hl').
    assert (l = l') as ->; [| done].
    apply first_links_elem in Hl' as [(ch & -> & _)%list_elem_of_fmap _].
    destruct l; simpl in *. congruence.
Qed.

Lemma batch_children_cons o (objs : list Parent) :
  batch_children (o :: objs) =
  (Child_id <$> Parent_children o) ++ batch_children objs.
Proof.
  unfold batch_children. rewrite memberships_cons, fmap_app.
  by rewrite <- list_fmap_compose.
Qed.

(** The staged pairs are the (first owner, child) pairs. *)
Lemma first_links_owner seen (objs : list Parent) l :
  l ∈ first_links seen (memberships objs) ↔
  (child_id l ∉ seen) ∧ first_owner objs (child_id l) = Some (parent_id l).
Proof.
  revert seen. induction objs as [|o objs IH]; intros seen.
  - simpl. split; [by intros ?%elem_of_nil | by intros [? ?]].
  - rewrite memberships_cons, first_links_app, elem_of_app.
    rewrite first_links_own, IH. cbn [first_owner].
    rewrite <- list_fmap_compose.
    change (child_id ∘ _) with Child_id.
    rewrite elem_of_union, elem_of_list_to_set.
    case_decide as Hc.
    + split.
      * intros [(? & -> & ?)|[Hn _]]; [done | tauto].
      * intros [? [= <-]]. left. done.
    + split.
      * intros [(? & ? & ?)|[Hn ?]]; [done | tauto].
      * intros [? ?]. right. tauto.
Qed.

End staging.

(** ** Running [create_many] *)

Section create_many_run.

Variables (o : Parent) (objs : list Parent) (w : World).

(** The four ways through lines 103-117. *)
Lemma create_many_run :
  let st := stage (o :: objs) in
  let s := db w in
  create_many (o :: objs) w =
  if decide (pk_ok (parent_table s) (parent_instances st)) then
    match child_instances st with
    | [] =>
        (mkWorld (parents_written s st)
           (opened w ++ (Execute <$> planned st) ++ [Commit; Close]),
         Return (length (parent_instances st)))
    | _ :: _ =>
        if decide (pk_ok (child_table s) (child_instances st)) then
          if decide (pk_ok (parent_child_table s) (parent_child_instances st)
                     ∧ fk_ok (children_written s st)
                             (parent_child_instances st)) then
            (mkWorld (written s st)
               (opened w ++ (Execute <$> planned st) ++ [Commit; Close]),
             Return (length (parent_instances st)))
          else
            (mkWorld s
               (opened w ++ (Execute <$> planned st) ++ [Rollback; Close]),
             Raise IntegrityError)
        else
          (mkWorld s
             (opened w ++ (Execute <$> take 2 (planned st)) ++
                [Rollback; Close]),
           Raise IntegrityError)
    end
  else
    (mkWorld s
       (opened w ++ (Execute <$> take 1 (planned st)) ++ [Rollback; Close]),
     Raise IntegrityError).
Proof.
  intros st s.
  unfold create_many, engine_connect, conn_begin, conn_execute, emit.
  unfold mbind, M_bind, bind, mret, M_ret, ret, planned, written, opened.
  unfold parents_written, children_written.
  fold st. cbn [db log]. fold s.
  unfold insert_parent. case_decide as Hp; cbn [db log].
  - destruct (child_instances st) as [|c0 cs] eqn:Hc; cbn [db log].
    + rewrite <- !app_assoc. reflexivity.
    + unfold insert_child. cbn [child_table parent_table parent_child_table].
      case_decide as Hch; cbn [db log].
      * unfold insert_parent_child.
        cbn [child_table parent_table parent_child_table].
        case_decide as Hl; cbn [db log]; rewrite <- !app_assoc; reflexivity.
      * rewrite <- !app_assoc. reflexivity.
  - rewrite <- !app_assoc. reflexivity.
Qed.

End create_many_run.

Section create_many_facts.

Implicit Types (objs : list Parent) (w : World) (s : Store).

Lemma stage_parents objs : parent_instances (stage objs) = Parent_id <$> objs.
Proof. by rewrite stage_spec. Qed.

Lemma stage_children objs :
  child_instances (stage objs) = child_id <$> parent_child_instances (stage objs).
Proof. by rewrite stage_spec. Qed.

Lemma stage_links objs :
  parent_child_instances (stage objs) = first_links ∅ (memberships objs).
Proof. by rewrite stage_spec. Qed.

Lemma written_no_children s objs :
  child_instances (stage objs) = [] →
  parents_written s (stage objs) = written s (stage objs).
Proof.
  intros Hc. unfold parents_written, written. rewrite Hc.
  rewrite stage_children in Hc. apply fmap_nil_inv in Hc. rewrite Hc.
  by rewrite !app_nil_r.
Qed.

(** Success and failure of a batch, with the tables and the record left
    behind. *)
Lemma create_many_outcome objs w :
  objs ≠ [] →
  let st := stage objs in
  create_many objs w =
  if decide (batch_accepted (db w) st) then
    (mkWorld (written (db w) st)
       (opened w ++ (Execute <$> planned st) ++ [Commit; Close]),
     Return (length objs))
  else
    (mkWorld (db w)
       (opened w ++
        (Execute <$> take (if decide (pk_ok (parent_table (db w))
                                       (parent_instances st)) then
                             if decide (pk_ok (child_table (db w))
                                          (child_instances st))
                             then 3 else 2
                           else 1)%nat (planned st)) ++
        [Rollback; Close]),
     Raise IntegrityError).
Proof.
  destruct objs as [|o objs]; [done |]. intros _ st.
  rewrite create_many_run. cbv zeta. subst st.
  set (st := stage (o :: objs)).
  assert (length (parent_instances st) = length (o :: objs)) as ->.
  { unfold st. by rewrite stage_parents, length_fmap. }
  destruct (decide (pk_ok (parent_table (db w)) (parent_instances st)))
    as [Hp|Hp].
  - destruct (child_instances st) as [|c0 cs] eqn:Hc.
    + rewrite decide_True by (split; [done | by left]).
      unfold st in *. by rewrite written_no_children.
    + destruct (decide (pk_ok (child_table (db w)) (c0 :: cs))) as [Hch|Hch].
      * case_decide as Hl.
        -- rewrite decide_True; [done |]. split; [done |]. right.
           rewrite Hc. tauto.
        -- rewrite decide_False; [by unfold planned; rewrite Hc |].
           intros [_ [?|?]]; [congruence | tauto].
      * rewrite decide_False; [done |].
        intros [_ [?|[? _]]]; [congruence |]. apply Hch. congruence.
  - rewrite decide_False; [done |]. by intros [? _].
Qed.

Lemma memberships_elem objs l :
  l ∈ memberships objs →
  ∃ o, o ∈ objs ∧ parent_id l = Parent_id o ∧
       child_id l ∈ Child_id <$> Parent_children o.
Proof.
  unfold memberships. intros (o & Hl & Ho)%list_elem_of_bind.
  apply list_elem_of_fmap in Hl as (ch & -> & Hch).
  exists o. simpl. split_and!; [done.. |]. by apply list_elem_of_fmap_2.
Qed.

(** A batch without collisions passes every constraint of a consistent
    store. *)
Lemma batch_fresh_accepted s objs :
  store_consistent s → batch_fresh s objs →
  batch_accepted s (stage objs).
Proof.
  intros (_ & _ & _ & Hfk) (Hnd & Hps & Hcs).
  assert (∀ l, l ∈ parent_child_instances (stage objs) →
               l ∈ memberships objs) as Hsub.
  { intros l. rewrite stage_links. by intros [? _]%first_links_elem. }
  split; [by rewrite stage_parents |]. right. split_and!.
  - split.
    + rewrite stage_children, stage_links. apply first_links_NoDup.
    + apply Forall_forall. intros c' Hc'. rewrite Forall_forall in Hcs.
      apply Hcs. rewrite stage_children in Hc'.
      apply list_elem_of_fmap in Hc' as (l & -> & Hl).
      by apply list_elem_of_fmap_2, Hsub.
  - split.
    + eapply (NoDup_fmap_1 child_id). rewrite stage_links.
      apply first_links_NoDup.
    + apply Forall_forall. intros l Hl Hold.
      rewrite Forall_forall in Hcs. apply (Hcs (child_id l)).
      * by apply list_elem_of_fmap_2, Hsub.
      * unfold fk_ok in Hfk. rewrite Forall_forall in Hfk.
        by apply Hfk.
  - apply Forall_forall. intros l Hl. unfold children_written; simpl. split.
    + apply elem_of_app. right. rewrite stage_parents.
      apply Hsub, memberships_elem in Hl as (o' & Ho' & -> & _).
      by apply list_elem_of_fmap_2.
    + apply elem_of_app. right. rewrite stage_children.
      by apply list_elem_of_fmap_2.
Qed.

Lemma create_many_ok objs w :
  objs ≠ [] → store_consistent (db w) → batch_fresh (db w) objs →
  create_many objs w =
  (mkWorld (written (db w) (stage objs))
     (opened w ++ (Execute <$> planned (stage objs)) ++ [Commit; Close]),
   Return (length objs)).
Proof.
  intros Hne Hs Hf. rewrite create_many_outcome by done.
  rewrite decide_True; [done |]. by apply batch_fresh_accepted.
Qed.

End create_many_facts.

(** ** Regrouping the rows *)

Section grouping.

Implicit Types (d : list (UUID4 * list UUID4)) (rows : list (UUID4 * UUID4)).
Implicit Types (k v : UUID4) (ks : list UUID4).

Lemma filter_keep {A} (P : A → Prop) `{!∀ x, Decision (P x)} (l : list A) :
  Forall P l → filter P l = l.
Proof.
  induction 1 as [|x l Hx _ IH]; [done |].
  by rewrite filter_cons_True, IH.
Qed.

Lemma filter_drop {A} (P : A → Prop) `{!∀ x, Decision (P x)} (l : list A) :
  Forall (λ x, ¬ P x) l → filter P l = [].
Proof.
  induction 1 as [|x l Hx _ IH]; [done |].
  by rewrite filter_cons_False.
Qed.

Lemma first_seen_elem ks k : k ∈ first_seen ks ↔ k ∈ ks.
Proof.
  induction ks as [|k0 ks IH]; simpl; [done |].
  rewrite !elem_of_cons, list_elem_of_filter, IH.
  destruct (decide (k = k0)); tauto.
Qed.

Lemma first_seen_NoDup ks : NoDup (first_seen ks).
Proof.
  induction ks as [|k0 ks IH]; simpl; constructor.
  - rewrite list_elem_of_filter. tauto.
  - by apply NoDup_filter.
Qed.

Lemma defaultdict_append_keys k v d :
  (defaultdict_append k v d).*1 =
  if decide (k ∈ d.*1) then d.*1 else d.*1 ++ [k].
Proof.
  induction d as [|[k' vs] d IH].
  - cbn [defaultdict_append fmap list_fmap app fst].
    case_decide as Hin; [by apply elem_of_nil in Hin | done].
  - cbn [defaultdict_append]. rewrite fmap_cons. cbn [fst].
    destruct (decide (k = k')) as [->|Hne]; rewrite fmap_cons; cbn [fst].
    + rewrite decide_True; [done | by left].
    + rewrite IH. destruct (decide (k ∈ d.*1)) as [Hin|Hin].
      * rewrite decide_True; [done | by right].
      * rewrite decide_False; [done |].
        by intros [?|?]%elem_of_cons.
Qed.

Lemma defaultdict_get_append k' k v d :
  defaultdict_get k' (defaultdict_append k v d) =
  if decide (k' = k) then defaultdict_get k' d ++ [v]
  else defaultdict_get k' d.
Proof.
  induction d as [|[k0 vs] d IH]; simpl.
  - by destruct (decide (k' = k)).
  - destruct (decide (k = k0)) as [->|Hne]; simpl.
    + by destruct (decide (k' = k0)).
    + rewrite IH. destruct (decide (k' = k0)) as [->|Hne'];
        [by rewrite decide_False | done].
Qed.

Lemma defaultdict_items d :
  NoDup (d.*1) → d = (λ k, (k, defaultdict_get k d)) <$> d.*1.
Proof.
  induction d as [|[k vs] d IH]; simpl; [done |].
  intros [Hk Hnd]%NoDup_cons. rewrite decide_True by done. f_equal.
  rewrite IH at 1 by done. apply list_fmap_ext.
  intros i k' Hk'%list_elem_of_lookup_2.
  rewrite decide_False; [done |]. by intros ->.
Qed.

Lemma group_fold_keys rows d :
  (foldl (λ parents row, defaultdict_append row.1 row.2 parents) d rows).*1 =
  d.*1 ++ filter (λ k, k ∉ d.*1) (first_seen (rows.*1)).
Proof.
  revert d. induction rows as [|[k v] rows IH]; intros d; simpl.
  - by rewrite app_nil_r.
  - rewrite IH, defaultdict_append_keys.
    destruct (decide (k ∈ d.*1)) as [Hin|Hin].
    + rewrite filter_cons_False by (by intros ?). f_equal.
      rewrite list_filter_filter. apply list_filter_iff.
      intros k'. split; [| tauto]. intros Hk'. split; [done |].
      by intros ->.
    + rewrite filter_cons_True by done. rewrite <- app_assoc. simpl.
      do 2 f_equal. rewrite list_filter_filter. apply list_filter_iff.
      intros k'. rewrite elem_of_app, list_elem_of_singleton. tauto.
Qed.

Lemma group_fold_get rows d k :
  defaultdict_get k
    (foldl (λ parents row, defaultdict_append row.1 row.2 parents) d rows) =
  defaultdict_get k d ++ children_of rows k.
Proof.
  revert d. induction rows as [|[k' v] rows IH]; intros d; simpl.
  - by rewrite app_nil_r.
  - rewrite IH, defaultdict_get_append. unfold children_of.
    destruct (decide (k = k')) as [->|Hne].
    + rewrite filter_cons_True by done. by rewrite <- app_assoc.
    + rewrite filter_cons_False; [done |]. simpl. congruence.
Qed.

Lemma group_rows_spec rows :
  group_rows rows = (λ k, (k, children_of rows k)) <$> first_seen (rows.*1).
Proof.
  unfold group_rows.
  set (d := foldl _ [] rows).
  assert (d.*1 = first_seen (rows.*1)) as Hkeys.
  { unfold d. rewrite group_fold_keys. simpl. apply filter_keep.
    apply Forall_forall. intros k _. apply not_elem_of_nil. }
  rewrite (defaultdict_items d) by (rewrite Hkeys; apply first_seen_NoDup).
  rewrite Hkeys. apply list_fmap_ext. intros _ k _. f_equal.
  unfold d. by rewrite group_fold_get.
Qed.

Lemma build_results_spec rows : build_results (group_rows rows) = regroup rows.
Proof.
  unfold build_results, regroup. rewrite group_rows_spec.
  by rewrite <- list_fmap_compose.
Qed.

End grouping.

(** ** Running [query] *)

Section query_facts.

Implicit Types (w : World) (s : Store) (key : Key) (k p c : UUID4).
Implicit Types (rows : list (UUID4 * UUID4)) (objs : list Parent).

Lemma query_run key w :
  query key w =
  (mkWorld (db w) (log w ++ [Connect; Execute (SelectChildren key); Close]),
   let results := regroup (select_children key (db w)) in
   match key with
   | Multi _ => Return (Many results)
   | Single _ =>
       match results with
       | [] => Raise IndexError
       | r :: _ => Return (One r)
       end
   end).
Proof.
  unfold query, engine_connect, conn_execute, emit.
  unfold mbind, M_bind, bind, mret, M_ret, ret, raise. cbn [db log].
  rewrite build_results_spec.
  destruct key; [destruct (regroup _) |]; cbn [db log];
    by rewrite <- !app_assoc.
Qed.

Lemma select_children_elem key s p c :
  (p, c) ∈ select_children key s ↔
  c ∈ child_table s ∧ mkLink p c ∈ parent_child_table s ∧ key_matches key p.
Proof.
  unfold select_children. rewrite list_elem_of_bind. split.
  - intros (c' & (l & Hrow & Hl)%list_elem_of_bind & Hc').
    apply list_elem_of_singleton in Hrow as [= -> ->].
    apply list_elem_of_filter in Hl as [[<- Hk] Hl]. by destruct l.
  - intros (Hc & Hl & Hk). exists c. split; [| done].
    apply list_elem_of_bind. exists (mkLink p c). split; [by left |].
    by apply list_elem_of_filter.
Qed.

Lemma select_children_keys key s k :
  k ∈ (select_children key s).*1 ↔ key_matches key k ∧ has_children s k.
Proof.
  unfold has_children. rewrite Exists_exists, list_elem_of_fmap. split.
  - intros ([p c] & -> & (Hc & Hl & Hk)%select_children_elem).
    split; [done |]. by exists (mkLink p c).
  - intros (Hk & [p c] & Hl & Hp & Hc). simpl in *. subst p.
    exists (k, c). split; [done |]. by apply select_children_elem.
Qed.

Lemma regroup_ids rows : Parent_id <$> regroup rows = first_seen (rows.*1).
Proof.
  unfold regroup. rewrite <- list_fmap_compose. apply list_fmap_id.
Qed.

Lemma children_of_nonempty rows k : k ∈ rows.*1 → children_of rows k ≠ [].
Proof.
  intros ([p c] & -> & Hin)%list_elem_of_fmap Hnil. unfold children_of in Hnil.
  apply fmap_nil_inv in Hnil.
  assert ((p, c) ∈ filter (λ row, row.1 = p) rows) as Hf
    by by apply list_elem_of_filter.
  simpl in Hnil. rewrite Hnil in Hf. by apply elem_of_nil in Hf.
Qed.

Lemma regroup_elem rows P :
  P ∈ regroup rows ↔
  Parent_id P ∈ rows.*1 ∧
  Parent_children P = mkChild <$> children_of rows (Parent_id P).
Proof.
  unfold regroup. rewrite list_elem_of_fmap. split.
  - intros (k & -> & Hk). rewrite first_seen_elem in Hk. by simpl.
  - intros [Hk Hch]. exists (Parent_id P). split; [| by apply first_seen_elem].
    destruct P; simpl in *. by subst.
Qed.

Lemma regroup_nonempty rows :
  Forall (λ P, Parent_children P ≠ []) (regroup rows).
Proof.
  apply Forall_forall. intros P [Hk ->]%regroup_elem.
  intros Hnil%fmap_nil_inv. by apply (children_of_nonempty rows (Parent_id P)).
Qed.

Lemma regroup_nil rows : regroup rows = [] ↔ rows = [].
Proof.
  split; [| by intros ->]. destruct rows as [|[p c] rows]; [done |].
  unfold regroup. simpl. discriminate.
Qed.

(** A single key without rows: [results[0]] on the empty list. *)
Lemma query_single_no_rows w k :
  select_children (Single k) (db w) = [] →
  (query (Single k) w).2 = Raise IndexError.
Proof. intros Hnone. rewrite query_run. cbn [snd]. by rewrite Hnone. Qed.

(** Whatever [query] returns has children. *)
Lemma query_returned_nonempty key w :
  Forall (λ P, Parent_children P ≠ []) (returned (query key w).2).
Proof.
  rewrite query_run. cbn [snd]. cbv zeta.
  pose proof (regroup_nonempty (select_children key (db w))) as Hall.
  destruct key as [k|ids]; [| exact Hall].
  destruct (regroup _) as [|r rs]; simpl; [constructor |].
  apply Forall_cons in Hall as [Hr _]. by constructor.
Qed.

End query_facts.

(** ** Reading back what a batch wrote *)

Section roundtrip.

Implicit Types (s : Store) (objs : list Parent) (o : Parent) (p c : UUID4).
Implicit Types (L : list Link) (l : Link).

Lemma bind_none {A B} (f : A → list B) (xs : list A) :
  Forall (λ x, f x = []) xs → xs ≫= f = [].
Proof.
  induction 1 as [|x xs Hx _ IH]; [done |].
  by rewrite bind_cons, Hx, IH.
Qed.

Lemma bind_ext_in {A B} (f g : A → list B) (xs : list A) :
  Forall (λ x, f x = g x) xs → xs ≫= f = xs ≫= g.
Proof.
  induction 1 as [|x xs Hx _ IH]; [done |].
  by rewrite !bind_cons, Hx, IH.
Qed.







Lemma first_seen_const {A} p (xs : list A) :
  xs ≠ [] → first_seen ((λ _, p) <$> xs) = [p].
Proof.
  destruct xs as [|x xs]; [done |]. intros _. rewrite fmap_cons.
  cbn [first_seen]. f_equal. apply filter_drop, Forall_forall.
  intros k Hk. rewrite first_seen_elem in Hk.
  apply list_elem_of_fmap in Hk as (? & -> & _). by intros ?.
Qed.


End roundtrip.

(** ** Counting rows by key *)

Section counting.

Context {A B : Type} `{EqDecision B} (f : A → B).




End counting.

(** * The claims *)

(** ** Writing *)

(** C7. For the empty input sequence [create_many] returns 0 at once: no
    connection is opened, no statement is sent, and the tables are left
    as they were. *)
Theorem create_many_empty (w : World) : create_many [] w = (w, Return 0%nat).
Proof. reflexivity. Qed.

(** C3. Every non-empty batch runs inside one transaction that sends the
    staged Parent rows first, then, if any Child row was staged, the Child
    rows and then the link rows. If every INSERT passes its uniqueness and
    foreign-key constraints the transaction commits, all staged rows are in
    the tables and the count of Parents is returned; if one INSERT violates
    a constraint, [IntegrityError] is raised after a rollback, nothing is
    sent after the failing statement, and the tables are exactly what they
    were before the call. *)
Theorem create_many_atomic (objs : list Parent) (w : World) :
  objs ≠ [] →
  let st := stage objs in
  let res := create_many objs w in
  (batch_accepted (db w) st →
     res.2 = Return (length objs) ∧
     db res.1 = written (db w) st ∧
     log res.1 = opened w ++ (Execute <$> planned st) ++ [Commit; Close]) ∧
  (¬ batch_accepted (db w) st →
     res.2 = Raise IntegrityError ∧
     db res.1 = db w ∧
     ∃ n, (1 ≤ n ≤ 3)%nat ∧
          log res.1 =
          opened w ++ (Execute <$> take n (planned st)) ++ [Rollback; Close]).
Proof.
  intros Hne st res. unfold res. rewrite create_many_outcome by done.
  fold st. split; intros Hacc.
  - by rewrite decide_True.
  - rewrite decide_False by done. cbn [fst snd db log].
    split_and!; [done.. |]. eexists. split; [| reflexivity].
    repeat case_decide; lia.
Qed.

Lemma create_many_atomic_witness :
  let w := mkWorld (mkStore [1] [10] [mkLink 1 10]) [] in
  let objs := [mkParent 2 [mkChild 11; mkChild 10]] in
  objs ≠ [] ∧ ¬ batch_accepted (db w) (stage objs) ∧
  (create_many objs w).2 = Raise IntegrityError ∧
  db (create_many objs w).1 = db w.
Proof.
  intros w objs.
  assert (objs ≠ []) as Hne by done.
  assert (¬ batch_accepted (db w) (stage objs)) as Hrej by compute_done.
  destruct (create_many_atomic objs w Hne) as [_ Hfail].
  destruct (Hfail Hrej) as (Hr & Hdb & _).
  split_and!; done.
Defined.

(** C8. In every call the staged link rows are as many as the staged Child
    rows, one for each: every child identity of the batch is staged exactly
    once, and its only link row names the first Parent, in input order,
    whose child list holds it. A later reference to an identity already
    staged adds neither a Child row nor a link row. *)
Theorem stage_links_follow_first_owner (objs : list Parent) :
  let st := stage objs in
  length (parent_child_instances st) = length (child_instances st) ∧
  child_id <$> parent_child_instances st = child_instances st ∧
  NoDup (child_instances st) ∧
  (∀ c, c ∈ child_instances st ↔ c ∈ batch_children objs) ∧
  (∀ p c, mkLink p c ∈ parent_child_instances st ↔ first_owner objs c = Some p).
Proof.
  intros st. unfold st. rewrite stage_children, stage_links.
  split_and!.
  - by rewrite length_fmap.
  - done.
  - apply first_links_NoDup.
  - intros c. split.
    + intros (l & -> & [Hl _]%first_links_elem)%list_elem_of_fmap.
      by apply list_elem_of_fmap_2.
    + intros Hc. apply first_links_complete; [done | apply not_elem_of_empty].
  - intros p c. rewrite first_links_owner. simpl. split; [tauto |].
    intros Ho. split; [apply not_elem_of_empty | done].
Qed.

(** C1 (how the code departs from it). Two Parents share the child identity
    10. The staging loop appends the link row under the same test as the
    Child row, so the batch stages one Child row and a single link row, that
    of the first Parent; the write succeeds, and the second Parent, left
    without any link row, cannot be read back. On the batch of lines
    155-159, where [parent3] holds a fresh child and the first child of
    [parent1], four link rows are staged for five memberships, and
    [parent3] is read back with one child. *)
Theorem shared_child_single_link :
  let objs := [mkParent 1 [mkChild 10]; mkParent 2 [mkChild 10]] in
  let res := create_many objs (mkWorld empty_store []) in
  let parent1 := mkParent 1 [mkChild 10; mkChild 11] in
  let parent2 := mkParent 2 [mkChild 12] in
  let parent3 := mkParent 3 [mkChild 13; mkChild 10] in
  let res' := create_many [parent1; parent2; parent3] (mkWorld empty_store []) in
  (child_instances (stage objs) = [10] ∧
   parent_child_instances (stage objs) = [mkLink 1 10] ∧
   res.2 = Return 2%nat ∧
   parent_child_table (db res.1) = [mkLink 1 10] ∧
   (query (Single 1) res.1).2 = Return (One (mkParent 1 [mkChild 10])) ∧
   (query (Single 2) res.1).2 = Raise IndexError) ∧
  (res'.2 = Return 3%nat ∧
   length (memberships [parent1; parent2; parent3]) = 5%nat ∧
   length (parent_child_table (db res'.1)) = 4%nat ∧
   (query (Single 3) res'.1).2 = Return (One (mkParent 3 [mkChild 13]))).
Proof. by vm_compute. Qed.

(** C5 (how the code departs from it). A Parent lists the child identity 10
    twice, so the batch has two (parent, child) memberships. The link row is
    appended under the same test as the Child row (line 100 under the guard
    of line 97), so the second position stages nothing: one link row is
    staged where the claim has one attempt per position, no primary key of
    [parent_child] is violated, and the write succeeds with count 1 instead
    of failing. This is the defect of C1, met inside one child list. *)
Theorem repeated_child_single_link :
  let objs := [mkParent 1 [mkChild 10; mkChild 10]] in
  let res := create_many objs (mkWorld empty_store []) in
  memberships objs = [mkLink 1 10; mkLink 1 10] ∧
  parent_child_instances (stage objs) = [mkLink 1 10] ∧
  length (parent_child_instances (stage objs)) ≠ 2%nat ∧
  res.2 = Return 1%nat ∧
  res.2 ≠ Raise IntegrityError ∧
  parent_child_table (db res.1) = [mkLink 1 10].
Proof. by vm_compute. Qed.




(** ** Reading *)

(** C4 (as stated, refuted). Parent 2 is persisted without children and the
    key 2 matches no row. What [query] surfaces is no outcome of its own for
    a missing key: nothing is returned, and the exception is the
    [IndexError] of [results[0]] on the empty list, which a caller cannot
    tell from the failure of any other index out of range. *)
Lemma query_single_not_found_counterexample :
  let w := mkWorld (mkStore [1; 2] [10] [mkLink 1 10]) [] in
  select_children (Single 2) (db w) = [] ∧
  (query (Single 2) w).2 = Raise IndexError ∧
  ¬ (∃ r, (query (Single 2) w).2 = Return r) ∧
  (call (query (Single 2)) w).2 = inr (Uncaught IndexError) ∧
  (item (@nil Parent) 0 w).2 = inr (Uncaught IndexError).
Proof.
  split_and!; [by vm_compute.. | | by vm_compute | by vm_compute].
  intros [r Hr]. vm_compute in Hr. discriminate.
Qed.

(** C4 (amended). When the rows selected for a single identity are none,
    [query] raises [IndexError], the exception of the unconditional
    [results[0]] on the empty result list; it returns nothing, in particular
    no aggregate with an empty child list, and the tables are untouched.
    The exception is raised in that case only: for a single identity with
    at least one row, [query] returns an aggregate, and that aggregate has
    children. *)
Theorem query_single_not_found (w : World) (k : UUID4) :
  select_children (Single k) (db w) = [] →
  (query (Single k) w).2 = Raise IndexError ∧
  returned (query (Single k) w).2 = [] ∧
  db (query (Single k) w).1 = db w ∧
  (∀ k', select_children (Single k') (db w) ≠ [] →
         ∃ P, (query (Single k') w).2 = Return (One P) ∧
              Parent_children P ≠ []).
Proof.
  intros Hnone. rewrite !query_run. cbn [fst snd db]. cbv zeta.
  rewrite Hnone. split_and!; [done.. |].
  intros k' Hsome. rewrite query_run. cbn [snd]. cbv zeta.
  pose proof (regroup_nonempty (select_children (Single k') (db w))) as Hall.
  destruct (regroup _) as [|P Ps] eqn:HP.
  - by apply regroup_nil in HP.
  - exists P. split; [done |]. by apply Forall_cons in Hall as [? _].
Qed.

Lemma query_single_not_found_witness :
  let w := mkWorld (mkStore [1; 2] [10] [mkLink 1 10]) [] in
  select_children (Single 2) (db w) = [] ∧
  (query (Single 2) w).2 = Raise IndexError ∧
  returned (query (Single 2) w).2 = [] ∧
  db (query (Single 2) w).1 = db w.
Proof.
  intros w.
  assert (select_children (Single 2) (db w) = []) as Hnone by reflexivity.
  destruct (query_single_not_found w 2 Hnone) as (H1 & H2 & H3 & _).
  split_and!; done.
Defined.

(** C6 (as stated, refuted). The keys 1 and 2 are both identities of
    persisted Parents and 3 is unknown; Parent 1 was written with an empty
    child list. The result holds the aggregate of Parent 2 only: a known
    identity is left out as well. *)
Lemma query_multi_counterexample :
  let objs := [mkParent 1 []; mkParent 2 [mkChild 10]] in
  let w := (create_many objs (mkWorld empty_store [])).1 in
  parent_table (db w) = [1; 2] ∧
  (query (Multi [1; 2; 3]) w).2 = Return (Many [mkParent 2 [mkChild 10]]) ∧
  ¬ (∀ k, k ∈ [1; 2; 3] → k ∈ parent_table (db w) →
          k ∈ Parent_id <$> returned (query (Multi [1; 2; 3]) w).2).
Proof.
  split_and!; [by vm_compute.. |]. intros Hall.
  specialize (Hall 1). revert Hall. vm_compute. intros Hall.
  assert (@elem_of _ _ (@list_elem_of N) 1 [2]) as Hin
    by (apply Hall; [left | left]).
  apply elem_of_cons in Hin as [Hin|Hin]; [done | by apply elem_of_nil in Hin].
Qed.

(** C6 (amended). For every collection of keys, [query] raises no error and
    returns one aggregate for each key that has at least one link row whose
    child row exists, and for no other identity: unknown keys are left out,
    and so are persisted Parents without children. The aggregates come in
    the order in which their parent identity first occurs among the selected
    rows, and each carries the child identities of its rows in row order.
    The tables are untouched. *)
Theorem query_multi_partial (w : World) (ids : list UUID4) :
  let rows := select_children (Multi ids) (db w) in
  let res := query (Multi ids) w in
  res.2 = Return (Many (regroup rows)) ∧
  db res.1 = db w ∧
  Parent_id <$> regroup rows = first_seen (rows.*1) ∧
  (∀ k, k ∈ Parent_id <$> regroup rows ↔ k ∈ ids ∧ has_children (db w) k) ∧
  Forall (λ P, Parent_children P =
               mkChild <$> children_of rows (Parent_id P)) (regroup rows).
Proof.
  intros rows res. unfold res. rewrite query_run. cbn [fst snd db].
  split_and!; [done | done | apply regroup_ids | |].
  - intros k. rewrite regroup_ids, first_seen_elem.
    unfold rows. by rewrite select_children_keys.
  - apply Forall_forall. by intros P [_ ?]%regroup_elem.
Qed.

(** C9. Every aggregate [query] returns, for a single key or for a
    collection, has a non-empty child list. A parent identity without any
    link row, such as that of a Parent persisted with an empty child list,
    is never returned: the single-key [query] for it raises [IndexError]
    and the multi-key [query] leaves it out, whatever the keys. *)
Theorem query_never_returns_childless (w : World) (key : Key) (k : UUID4) :
  k ∉ parent_id <$> parent_child_table (db w) →
  Forall (λ P, Parent_children P ≠ []) (returned (query key w).2) ∧
  (query (Single k) w).2 = Raise IndexError ∧
  (∀ ids, k ∉ Parent_id <$> returned (query (Multi ids) w).2).
Proof.
  intros Hk. split_and!.
  - apply query_returned_nonempty.
  - apply query_single_no_rows.
    destruct (select_children _ _) as [|[p c] rows] eqn:Hrows; [done |].
    assert ((p, c) ∈ select_children (Single k) (db w)) as Hin
      by (rewrite Hrows; by left).
    apply select_children_elem in Hin as (_ & Hl & Hp). simpl in Hp. subst p.
    exfalso. apply Hk.
    by apply (list_elem_of_fmap_2' parent_id _ (mkLink k c)).
  - intros ids. rewrite query_run. cbn [snd returned]. cbv zeta.
    rewrite regroup_ids, first_seen_elem, select_children_keys.
    intros [_ Hhas]. apply Hk. unfold has_children in Hhas.
    apply Exists_exists in Hhas as (l & Hl & <- & _).
    by apply list_elem_of_fmap_2.
Qed.

Lemma query_never_returns_childless_witness :
  let objs := [mkParent 1 []; mkParent 2 [mkChild 10]] in
  let w := (create_many objs (mkWorld empty_store [])).1 in
  (1 ∈ parent_table (db w) ∧ 1 ∉ parent_id <$> parent_child_table (db w)) ∧
  Forall (λ P, Parent_children P ≠ []) (returned (query (Multi [1; 2]) w).2) ∧
  (query (Single 1) w).2 = Raise IndexError ∧
  (∀ ids, 1 ∉ Parent_id <$> returned (query (Multi ids) w).2).
Proof.
  intros objs w.
  assert (1 ∈ parent_table (db w)) as H0 by compute_done.
  assert (1 ∉ parent_id <$> parent_child_table (db w)) as H1 by compute_done.
  split; [done |]. exact (query_never_returns_childless w (Multi [1; 2]) 1 H1).
Defined.


(** * Further properties *)

(** ** What a write leaves behind *)

Section write_invariants.

Implicit Types (objs : list Parent) (w : World) (s : Store).

Lemma stage_no_children_no_links objs :
  child_instances (stage objs) = [] → parent_child_instances (stage objs) = [].
Proof. rewrite stage_children. apply fmap_nil_inv. Qed.

Lemma batch_children_staged objs c :
  c ∈ batch_children objs → c ∈ child_instances (stage objs).
Proof.
  intros Hc. rewrite stage_children, stage_links.
  apply first_links_complete; [done | apply not_elem_of_empty].
Qed.

Lemma pk_ok_NoDup_app {A} `{EqDecision A} (table rows : list A) :
  NoDup table → pk_ok table rows → NoDup (table ++ rows).
Proof.
  intros Ht [Hr Hfresh]. apply NoDup_app. split_and!; [done | | done].
  intros x Hx Hx'. rewrite Forall_forall in Hfresh. by apply (Hfresh x).
Qed.

(** The tables written by an accepted batch satisfy the constraints of the
    schema again. *)
Lemma written_consistent s objs :
  store_consistent s → batch_accepted s (stage objs) →
  store_consistent (written s (stage objs)).
Proof.
  intros (Hp & Hc & Hl & Hfk) [Hpk Hrest]. unfold fk_ok in Hfk.
  rewrite Forall_forall in Hfk.
  assert (fk_ok (written s (stage objs)) (parent_child_table s)) as Hold.
  { apply Forall_forall. intros l Hl'. destruct (Hfk l Hl') as [??].
    unfold written; simpl. rewrite !elem_of_app. tauto. }
  unfold store_consistent.
  destruct Hrest as [Hnone|(Hck & Hlk & Hfk')].
  - pose proof (stage_no_children_no_links objs Hnone) as Hnol.
    unfold written in *. rewrite Hnone, Hnol in *. simpl in *.
    rewrite !app_nil_r in *. split_and!; [| done..].
    by apply pk_ok_NoDup_app.
  - split_and!; unfold written; simpl.
    + by apply pk_ok_NoDup_app.
    + by apply pk_ok_NoDup_app.
    + by apply pk_ok_NoDup_app.
    + apply Forall_app. split; [exact Hold | exact Hfk'].
Qed.

(** An accepted batch collides with nothing, whatever the store. *)
Lemma batch_accepted_fresh s objs :
  batch_accepted s (stage objs) → batch_fresh s objs.
Proof.
  intros [[Hnd Hps] Hrest]. rewrite stage_parents in Hnd, Hps.
  split_and!; [done.. |]. apply Forall_forall. intros c Hc.
  apply batch_children_staged in Hc.
  destruct Hrest as [Hnone|([_ Hcs] & _)].
  - rewrite Hnone in Hc. by apply elem_of_nil in Hc.
  - rewrite Forall_forall in Hcs. by apply Hcs.
Qed.

End write_invariants.

(** X1. [create_many] keeps the constraints of the schema: called on tables
    whose primary keys are unique and whose link rows reference existing
    rows, it leaves such tables behind, whether the batch is empty, written
    or rejected. *)
Theorem create_many_keeps_consistency (objs : list Parent) (w : World) :
  store_consistent (db w) → store_consistent (db (create_many objs w).1).
Proof.
  intros Hs. destruct objs as [|o objs]; [done |].
  rewrite create_many_outcome by done. cbv zeta.
  case_decide as Hacc; cbn [fst db]; [| done].
  by apply written_consistent.
Qed.

Lemma create_many_keeps_consistency_witness :
  let w := mkWorld (mkStore [7] [70] [mkLink 7 70]) [] in
  let objs := [mkParent 1 [mkChild 10; mkChild 70]; mkParent 2 []] in
  let objs' := [mkParent 1 [mkChild 10; mkChild 10]; mkParent 2 []] in
  store_consistent (db w) ∧
  store_consistent (db (create_many objs w).1) ∧
  store_consistent (db (create_many objs' w).1).
Proof.
  intros w objs objs'.
  assert (store_consistent (db w)) as Hs by compute_done.
  split_and!; [done | |]; by apply create_many_keeps_consistency.
Defined.

(** X2. On tables that satisfy the constraints of the schema, a non-empty
    batch is written exactly when its Parent identities are pairwise
    distinct and absent from [parent] and none of its child identities is
    in [child] yet. Otherwise [create_many] raises [IntegrityError] and the
    tables are what they were: in particular a child already stored cannot
    be referenced again by a later batch. *)
Theorem create_many_succeeds_iff_fresh (objs : list Parent) (w : World) :
  objs ≠ [] →
  store_consistent (db w) →
  ((create_many objs w).2 = Return (length objs) ↔ batch_fresh (db w) objs) ∧
  (¬ batch_fresh (db w) objs →
     (create_many objs w).2 = Raise IntegrityError ∧
     db (create_many objs w).1 = db w).
Proof.
  intros Hne Hs. rewrite create_many_outcome by done. cbv zeta.
  case_decide as Hacc; cbn [fst snd db].
  - pose proof (batch_accepted_fresh _ _ Hacc). split; [done |]. done.
  - assert (¬ batch_fresh (db w) objs) as Hnf
      by (intros Hf; by apply Hacc, batch_fresh_accepted).
    split; [split; [done | by intros ?] | done].
Qed.

Lemma create_many_succeeds_iff_fresh_witness :
  let w := mkWorld (mkStore [7] [70] [mkLink 7 70]) [] in
  let objs := [mkParent 1 [mkChild 10; mkChild 70]] in
  (objs ≠ [] ∧ store_consistent (db w) ∧ ¬ batch_fresh (db w) objs) ∧
  (create_many objs w).2 = Raise IntegrityError ∧
  db (create_many objs w).1 = db w.
Proof.
  intros w objs.
  assert (objs ≠ []) as H1 by done.
  assert (store_consistent (db w)) as H2 by compute_done.
  assert (¬ batch_fresh (db w) objs) as H3 by compute_done.
  split; [done |].
  exact (proj2 (create_many_succeeds_iff_fresh objs w H1 H2) H3).
Defined.

(** X3. [create_many] is not repeatable: after a non-empty batch has been
    written, the same call again raises [IntegrityError] and leaves the
    tables as the first call left them. *)
Theorem create_many_twice_rejected (objs : list Parent) (w : World) :
  objs ≠ [] →
  store_consistent (db w) →
  batch_fresh (db w) objs →
  let w1 := (create_many objs w).1 in
  (create_many objs w).2 = Return (length objs) ∧
  (create_many objs w1).2 = Raise IntegrityError ∧
  db (create_many objs w1).1 = db w1.
Proof.
  intros Hne Hs Hf w1. unfold w1. rewrite create_many_ok by done.
  cbn [fst snd]. split; [done |].
  rewrite create_many_outcome by done. cbv zeta. cbn [db].
  rewrite decide_False; [done |].
  intros [[_ Hps] _]. rewrite Forall_forall in Hps.
  destruct objs as [|o objs]; [done |].
  apply (Hps (Parent_id o)).
  - rewrite stage_parents. by left.
  - unfold written; simpl. rewrite stage_parents.
    apply elem_of_app. right. by left.
Qed.

Lemma create_many_twice_rejected_witness :
  let w := mkWorld (mkStore [7] [70] [mkLink 7 70]) [] in
  let objs := [mkParent 1 [mkChild 10; mkChild 11]; mkParent 2 []] in
  (objs ≠ [] ∧ store_consistent (db w) ∧ batch_fresh (db w) objs) ∧
  (create_many objs w).2 = Return (length objs) ∧
  (create_many objs (create_many objs w).1).2 = Raise IntegrityError ∧
  db (create_many objs (create_many objs w).1).1 = db (create_many objs w).1.
Proof.
  intros w objs.
  assert (objs ≠ []) as H1 by done.
  assert (store_consistent (db w)) as H2 by compute_done.
  assert (batch_fresh (db w) objs) as H3 by compute_done.
  split; [done |]. exact (create_many_twice_rejected objs w H1 H2 H3).
Defined.

(** ** What a read returns *)

Section read_facts.

Implicit Types (w : World) (s : Store) (key : Key) (k p c : UUID4).
Implicit Types (rows : list (UUID4 * UUID4)).







Lemma select_no_keys s : select_children (Multi []) s = [].
Proof.
  unfold select_children. apply bind_none, Forall_forall. intros c _.
  rewrite filter_drop; [done |]. apply Forall_forall.
  intros l _ [_ Hin]. simpl in Hin. by apply elem_of_nil in Hin.
Qed.

Lemma select_one_key s k :
  select_children (Multi [k]) s = select_children (Single k) s.
Proof.
  unfold select_children. apply bind_ext_in, Forall_forall. intros c _.
  f_equal. apply list_filter_iff. intros l. simpl.
  by rewrite list_elem_of_singleton.
Qed.

Lemma regroup_one_parent rows k :
  Forall (λ r, r.1 = k) rows →
  regroup rows =
  match rows with
  | [] => []
  | _ :: _ => [mkParent k (mkChild <$> rows.*2)]
  end.
Proof.
  intros Hall. destruct rows as [|r rows]; [done |].
  unfold regroup.
  assert ((r :: rows).*1 = (λ _, k) <$> (r :: rows)) as ->.
  { apply list_fmap_ext. intros i x Hx%list_elem_of_lookup_2.
    rewrite Forall_forall in Hall. by apply Hall. }
  rewrite first_seen_const by done. cbn [fmap list_fmap].
  unfold children_of. by rewrite filter_keep.
Qed.

Lemma select_single_parents s k :
  Forall (λ r, r.1 = k) (select_children (Single k) s).
Proof.
  apply Forall_forall. intros [p c] (_ & _ & Hk)%select_children_elem. done.
Qed.

End read_facts.



(** X5. For the empty collection of keys [query] returns the empty list,
    without error, whatever the tables hold. *)
Theorem query_no_keys (w : World) :
  (query (Multi []) w).2 = Return (Many []) ∧ db (query (Multi []) w).1 = db w.
Proof. rewrite query_run. cbn [fst snd db]. by rewrite select_no_keys. Qed.

(** X6. The two shapes of [query] agree: for a collection of one key it
    returns the list of what the single-key call returns, a one-element list
    holding the same aggregate, or the empty list where the single-key call
    raises [IndexError]. *)
Theorem query_one_key_agrees (w : World) (k : UUID4) :
  (query (Multi [k]) w).2 = Return (Many (returned (query (Single k) w).2)) ∧
  ((query (Single k) w).2 = Raise IndexError ↔
   (query (Multi [k]) w).2 = Return (Many [])).
Proof.
  rewrite !query_run. cbn [snd]. cbv zeta. rewrite select_one_key.
  rewrite (regroup_one_parent _ k) by apply select_single_parents.
  destruct (select_children (Single k) (db w)) as [|r rows]; simpl.
  - done.
  - split; [done |]. split; discriminate.
Qed.

(** ** A write followed by reads *)

Section write_then_read.

Implicit Types (w : World) (s : Store) (key : Key) (k p c : UUID4).
Implicit Types (rows : list (UUID4 * UUID4)) (objs : list Parent) (o : Parent).

Lemma returned_query key w :
  returned (query key w).2 = regroup (select_children key (db w)).
Proof.
  rewrite query_run. cbn [snd]. cbv zeta. destruct key as [k|ids]; [| done].
  rewrite (regroup_one_parent _ k) by apply select_single_parents.
  by destruct (select_children _ _).
Qed.

Lemma query_db key w : db (query key w).1 = db w.
Proof. by rewrite query_run. Qed.

Lemma query_result_db key w w' :
  db w = db w' → (query key w).2 = (query key w').2.
Proof. intros Heq. rewrite !query_run. cbn [snd]. by rewrite Heq. Qed.











End write_then_read.







(** ** The module's own run *)

Section run_facts.

Context {A B : Type}.
Implicit Types (w : World) (k : A → Script B).





End run_facts.




(** ** Reads leave no trace in the tables *)

Lemma create_many_db_only (objs : list Parent) (w w' : World) :
  db w = db w' →
  (create_many objs w).2 = (create_many objs w').2 ∧
  db (create_many objs w).1 = db (create_many objs w').1.
Proof.
  intros Heq. destruct objs as [|o objs]; [done |].
  rewrite !create_many_outcome by done. cbv zeta. rewrite Heq.
  by case_decide.
Qed.

(** X11. [query] never writes: whatever the key, and also when it raises
    [IndexError], the tables after the call are the tables before it, so a
    later [query] returns what it would have returned, and a later
    [create_many] has the outcome and leaves the tables it would have left,
    without the read. *)
Theorem query_read_only (w : World) (key key' : Key) (objs : list Parent) :
  db (query key w).1 = db w ∧
  (query key' (query key w).1).2 = (query key' w).2 ∧
  (create_many objs (query key w).1).2 = (create_many objs w).2 ∧
  db (create_many objs (query key w).1).1 = db (create_many objs w).1.
Proof.
  pose proof (query_db key w) as Hdb. split_and!.
  - done.
  - by apply query_result_db.
  - by apply create_many_db_only.
  - by apply create_many_db_only.
Qed.

(** X12. A multi-key [query] returns at most one aggregate per distinct
    key: the result is never longer than the collection of keys without its
    repetitions. *)
Theorem query_multi_at_most_keys (w : World) (ids : list UUID4) :
  (length (returned (query (Multi ids) w).2) ≤ length (remove_dups ids))%nat ∧
  (length (returned (query (Multi ids) w).2) ≤ length ids)%nat.
Proof.
  rewrite returned_query.
  set (ps := regroup (select_children (Multi ids) (db w))).
  assert (length ps ≤ length (remove_dups ids))%nat as Hle.
  { rewrite <- (length_fmap Parent_id ps). apply submseteq_length.
    apply NoDup_submseteq.
    - unfold ps. rewrite regroup_ids. apply first_seen_NoDup.
    - intros k Hk. apply elem_of_remove_dups. unfold ps in Hk.
      rewrite regroup_ids, first_seen_elem in Hk.
      by apply select_children_keys in Hk as [Hk _]. }
  split; [done |]. etrans; [exact Hle |].
  apply submseteq_length, NoDup_submseteq; [apply NoDup_remove_dups |].
  intros k. by rewrite elem_of_remove_dups.
Qed.
